(** * The benchmark sweep driver [run.py]

    [run.py] launches the external [comparison] binary over two parameter
    grids and prints what each run wrote to its standard output.  The
    development below embeds the script in a small monad that threads the
    outside world and the Python heap, can raise the exceptions the script
    can raise (those of the launcher, of the decoder and of [print]), and records what the script does to the outside (launching a
    subprocess, printing a line) in a trace. *)

From Stdlib Require Import ZArith List Lia.
From Stdlib Require Import Strings.Byte.
From stdpp Require Import base option list gmap strings.

Local Open Scope Z_scope.

(** A lemma depends on the launcher and on the standard output only where
    its statement names them. *)
#[local] Set Default Proof Using "Type".

(** ** Python values the script handles *)

(** A [bytes] object. *)
Abbreviation bytes := (list byte).

(** A [str] object, as its sequence of code points. *)
Abbreviation text := (list Z).

Definition byte_val (b : byte) : Z := Z.of_N (Byte.to_N b).

(** [b[:stop]] on a sequence: a negative [stop] counts from the end, and the
    bound is clamped to the sequence. *)
Definition slice_to {A} (stop : Z) (b : list A) : list A :=
  let len := Z.of_nat (length b) in
  let stop := if stop <? 0 then Z.max 0 (len + stop) else Z.min stop len in
  take (Z.to_nat stop) b.

(** ** [str(b, encoding="utf-8")]

    The strict UTF-8 decoder: shortest forms only, no surrogates, nothing
    above U+10FFFF; [None] stands for [UnicodeDecodeError]. *)
Module Utf8.

Definition is_continuation (ch : Z) : bool := (0x80 <=? ch) && (ch <? 0xC0).

Fixpoint decode_vals (s : list Z) : option text :=
  match s with
  | [] => Some []
  | ch :: s1 =>
    if ch <? 0x80 then cons ch <$> decode_vals s1
    else if ch <? 0xC2 then None
    else if ch <? 0xE0 then
      match s1 with
      | ch2 :: s2 =>
        if is_continuation ch2
        then cons (Z.shiftl ch 6 + ch2 - (Z.shiftl 0xC0 6 + 0x80))
               <$> decode_vals s2
        else None
      | _ => None
      end
    else if ch <? 0xF0 then
      match s1 with
      | ch2 :: ch3 :: s3 =>
        if is_continuation ch2 && is_continuation ch3
           && negb ((ch =? 0xE0) && (ch2 <? 0xA0))
           && negb ((ch =? 0xED) && (0xA0 <=? ch2))
        then cons (Z.shiftl ch 12 + Z.shiftl ch2 6 + ch3
                   - (Z.shiftl 0xE0 12 + Z.shiftl 0x80 6 + 0x80))
               <$> decode_vals s3
        else None
      | _ => None
      end
    else if ch <? 0xF5 then
      match s1 with
      | ch2 :: ch3 :: ch4 :: s4 =>
        if is_continuation ch2 && is_continuation ch3 && is_continuation ch4
           && negb ((ch =? 0xF0) && (ch2 <? 0x90))
           && negb ((ch =? 0xF4) && (0x90 <=? ch2))
        then cons (Z.shiftl ch 18 + Z.shiftl ch2 12 + Z.shiftl ch3 6 + ch4
                   - (Z.shiftl 0xF0 18 + Z.shiftl 0x80 12
                      + Z.shiftl 0x80 6 + 0x80))
               <$> decode_vals s4
        else None
      | _ => None
      end
    else None
  end.

Definition decode (b : bytes) : option text := decode_vals (byte_val <$> b).

(** The code points UTF-8 has an encoding for: all but the surrogates. *)
Definition scalar (c : Z) : Prop := 0 ≤ c < 0xD800 ∨ 0xE000 ≤ c < 0x110000.

(** The encoding of one code point, against which the decoder is checked
    ([decode_encode]). *)
Definition encode_char (c : Z) : list Z :=
  if c <? 0x80 then [c]
  else if c <? 0x800 then [0xC0 + c / 64; 0x80 + c mod 64]
  else if c <? 0x10000 then
    [0xE0 + c / 4096; 0x80 + (c / 64) mod 64; 0x80 + c mod 64]
  else [0xF0 + c / 262144; 0x80 + (c / 4096) mod 64;
        0x80 + (c / 64) mod 64; 0x80 + c mod 64].

Definition encode (s : text) : list Z := s ≫= encode_char.

End Utf8.

(** ** The outside world, the heap and the trace *)

(** What one launch of a subprocess comes to: either the launcher raises
    before any process runs (no such executable, an empty argument vector),
    or the process runs to its end and leaves an exit status and the two
    captured streams. *)
Inductive launched :=
| NotStarted
| Exited (returncode : Z) (stdout stderr : bytes).

(** A reference to a Python [list] object. *)
Abbreviation loc := nat.

(** [subprocess.CompletedProcess]. *)
Record CompletedProcess := {
  cp_args : loc;
  cp_returncode : Z;
  cp_stdout : bytes;
  cp_stderr : bytes
}.

(** The exceptions the script can end with.  [NoSuchObject] is not a Python
    exception: it marks a reference to no object, which Python cannot form
    and the script never does ([script_no_dangling]). *)
Inductive exception :=
| LaunchError (cmd : list string)
| CalledProcessError (returncode : Z) (cmd : list string) (output stderr : bytes)
| UnicodeDecodeError (object : bytes)
| UnicodeEncodeError (object : text)
| NoSuchObject (l : loc).

(** What the script does to the outside. *)
Inductive event :=
| Launch (argv : list string) (r : launched)
| Print (line : text).

Definition newline : Z := 10.

(** The launches of a trace, oldest first, with what each came to. *)
Definition launches (t : list event) : list (list string * launched) :=
  omap (fun e => match e with Launch argv r => Some (argv, r) | Print _ => None end) t.

(** The argument vectors handed to the launcher, oldest first. *)
Definition invocations (t : list event) : list (list string) := (launches t).*1.

(** The lines printed, oldest first. *)
Definition printed (t : list event) : list text :=
  omap (fun e => match e with Print line => Some line | Launch _ _ => None end) t.

(** The text on the driver's standard output: [print] ends each line with a
    newline. *)
Definition stdout_text (t : list event) : text :=
  concat ((fun line => line ++ [newline]) <$> printed t).

(** An outcome with the captured standard error taken out of the one
    exception that carries it. *)
Definition forget_stderr {A} (o : A + exception) : A + exception :=
  match o with
  | inr (CalledProcessError returncode cmd output _) =>
    inr (CalledProcessError returncode cmd output [])
  | _ => o
  end.

(** What [run] prints for a subprocess that exited with [returncode] having
    written [out] to its standard output, on a standard output that encodes
    the code points [encodes] holds of. *)
Definition shown (encodes : Z -> bool) (returncode : Z) (out : bytes) : list text :=
  if returncode =? 0
  then match Utf8.decode (slice_to (-1) out) with
       | Some s => if forallb encodes s then [s] else []
       | None => []
       end
  else [].

(** A launch with what the subprocess wrote to standard error left out. *)
Definition mute (r : launched) : launched :=
  match r with
  | NotStarted => NotStarted
  | Exited returncode out _ => Exited returncode out []
  end.

Definition mute_event (e : event) : event :=
  match e with
  | Launch argv r => Launch argv (mute r)
  | Print line => Print line
  end.

(** The launcher [launch] with every subprocess's standard error left out. *)
Definition quiet {World} (launch : World -> list string -> launched * World)
  : World -> list string -> launched * World :=
  fun w argv => let '(r, w1) := launch w argv in (mute r, w1).

(** *** Stub launchers and standard outputs *)

(** A standard output in UTF-8: it encodes every text that decodes. *)
Definition any_text : Z -> bool := fun _ => true.

(** A standard output in ASCII. *)
Definition ascii_only : Z -> bool := fun c => (0 <=? c) && (c <? 0x80).

(** Every launch comes to [r]. *)
Definition const_launch (r : launched) : unit -> list string -> launched * unit :=
  fun w _ => (r, w).

(** The [n]-th launch comes to the [n]-th element of [rs], and does not start
    once [rs] is used up; the world is the number of launches so far. *)
Definition scripted (rs : list launched) : nat -> list string -> launched * nat :=
  fun n _ => (nth n rs NotStarted, S n).

(** Exit status 0, [b"hello\n"] on standard output. *)
Definition says_hello : launched := Exited 0 [x68; x65; x6c; x6c; x6f; x0a] [].

(** Exit status 0, [b"\xff\n"] on standard output. *)
Definition says_garbage : launched := Exited 0 [xff; x0a] [].

(** Exit status 0, [b"\xc3\xa9\n"] on standard output: an e with an acute
    accent and a newline, in UTF-8. *)
Definition says_e_acute : launched := Exited 0 [xc3; xa9; x0a] [].

(** Exit status 0, [b"ok\n"] on standard output, [b"warn"] on standard error. *)
Definition says_ok : launched := Exited 0 [x6f; x6b; x0a] [x77; x61; x72; x6e].

(** Exit status 1, [b"no\n"] on standard error. *)
Definition exits_one : launched := Exited 1 [] [x6e; x6f; x0a].

Definition hello_twice_then_one : list launched := [says_hello; says_hello; exits_one].

Definition hello_twice_then_garbage : list launched :=
  [says_hello; says_hello; says_garbage].

(** *** One launch, apart from the driver's standard output *)

(** The text [run] decodes from a launch, when it gets that far. *)
Definition decoding (r : launched) : option text :=
  match r with
  | NotStarted => None
  | Exited returncode out _ =>
    if returncode =? 0 then Utf8.decode (slice_to (-1) out) else None
  end.

(** The exception [run] raises for a launch it prints nothing for. *)
Definition failure (argv : list string) (r : launched) : exception :=
  match r with
  | NotStarted => LaunchError argv
  | Exited returncode out err =>
    if returncode =? 0
    then match Utf8.decode (slice_to (-1) out) with
         | Some s => UnicodeEncodeError s
         | None => UnicodeDecodeError (slice_to (-1) out)
         end
    else CalledProcessError returncode argv out err
  end.

(** The subprocess ran and exited with status 0. *)
Definition exited_zero (r : launched) : Prop :=
  match r with
  | NotStarted => False
  | Exited returncode _ _ => returncode = 0
  end.

(** The subprocess exited with status 0 and what it wrote, less the last
    byte, is UTF-8. *)
Definition succeeded (r : launched) : Prop :=
  match r with
  | NotStarted => False
  | Exited returncode out _ =>
    returncode = 0 ∧ is_Some (Utf8.decode (slice_to (-1) out))
  end.

Lemma decoding_succeeded r : is_Some (decoding r) ↔ succeeded r.
Proof.
  destruct r as [|rc out err]; simpl.
  - split; [intros [? ?]; discriminate | tauto].
  - destruct (Z.eqb_spec rc 0) as [->|Hrc].
    + tauto.
    + split; [intros [? ?]; discriminate | tauto].
Qed.

Lemma succeeded_exited_zero r : succeeded r → exited_zero r.
Proof. destruct r; simpl; tauto. Qed.

#[global] Instance exited_zero_dec r : Decision (exited_zero r).
Proof. destruct r; simpl; apply _. Defined.

#[global] Instance succeeded_dec r : Decision (succeeded r).
Proof. destruct r; simpl; apply _. Defined.

(** ** The decoder and the slice by themselves *)

(** *** The decoder against the encoder *)

Lemma decode_vals_cons ch s1 :
  Utf8.decode_vals (ch :: s1) =
  if ch <? 0x80 then cons ch <$> Utf8.decode_vals s1
  else if ch <? 0xC2 then None
  else if ch <? 0xE0 then
    match s1 with
    | ch2 :: s2 =>
      if Utf8.is_continuation ch2
      then cons (Z.shiftl ch 6 + ch2 - (Z.shiftl 0xC0 6 + 0x80))
             <$> Utf8.decode_vals s2
      else None
    | _ => None
    end
  else if ch <? 0xF0 then
    match s1 with
    | ch2 :: ch3 :: s3 =>
      if Utf8.is_continuation ch2 && Utf8.is_continuation ch3
         && negb ((ch =? 0xE0) && (ch2 <? 0xA0))
         && negb ((ch =? 0xED) && (0xA0 <=? ch2))
      then cons (Z.shiftl ch 12 + Z.shiftl ch2 6 + ch3
                 - (Z.shiftl 0xE0 12 + Z.shiftl 0x80 6 + 0x80))
             <$> Utf8.decode_vals s3
      else None
    | _ => None
    end
  else if ch <? 0xF5 then
    match s1 with
    | ch2 :: ch3 :: ch4 :: s4 =>
      if Utf8.is_continuation ch2 && Utf8.is_continuation ch3
         && Utf8.is_continuation ch4
         && negb ((ch =? 0xF0) && (ch2 <? 0x90))
         && negb ((ch =? 0xF4) && (0x90 <=? ch2))
      then cons (Z.shiftl ch 18 + Z.shiftl ch2 12 + Z.shiftl ch3 6 + ch4
                 - (Z.shiftl 0xF0 18 + Z.shiftl 0x80 12
                    + Z.shiftl 0x80 6 + 0x80))
             <$> Utf8.decode_vals s4
      else None
    | _ => None
    end
  else None.
Proof. reflexivity. Qed.

Lemma encode_cons c s : Utf8.encode (c :: s) = Utf8.encode_char c ++ Utf8.encode s.
Proof. reflexivity. Qed.

Ltac euclid := Z.to_euclidean_division_equations; lia.

(** Case on every comparison in the goal, dropping the cases the bounds at
    hand rule out. *)
Ltac split_tests :=
  repeat match goal with
  | |- context [?a <? ?b] => destruct (Z.ltb_spec a b); try (exfalso; euclid)
  | |- context [?a <=? ?b] => destruct (Z.leb_spec a b); try (exfalso; euclid)
  | |- context [?a =? ?b] => destruct (Z.eqb_spec a b); try (exfalso; euclid)
  end.

(** The same on a hypothesis, dropping the cases in which it is absurd. *)
Ltac split_tests_in H :=
  repeat match type of H with
  | context [?a <? ?b] => destruct (Z.ltb_spec a b)
  | context [?a <=? ?b] => destruct (Z.leb_spec a b)
  | context [?a =? ?b] => destruct (Z.eqb_spec a b)
  end; cbn [andb negb] in H; try discriminate H.

Lemma decode_encode_char c rest :
  Utf8.scalar c →
  Utf8.decode_vals (Utf8.encode_char c ++ rest) = cons c <$> Utf8.decode_vals rest.
Proof.
  intros Hc. unfold Utf8.scalar in Hc. unfold Utf8.encode_char.
  destruct (Z.ltb_spec c 0x80);
    [|destruct (Z.ltb_spec c 0x800); [|destruct (Z.ltb_spec c 0x10000)]];
    simpl app; rewrite decode_vals_cons; unfold Utf8.is_continuation;
    rewrite ?Z.shiftl_mul_pow2 by lia;
    split_tests; cbn [andb negb]; try reflexivity; do 2 f_equal; euclid.
Qed.

(** Decoding the encoding of a text gives the text back. *)
Lemma decode_encode s :
  Forall Utf8.scalar s → Utf8.decode_vals (Utf8.encode s) = Some s.
Proof.
  induction 1 as [|c s Hc _ IH]; [reflexivity|].
  rewrite encode_cons, decode_encode_char, IH; done.
Qed.

(** What decodes is the encoding of what it decodes to: the decoder takes
    shortest forms only, and nothing in the surrogate range or above
    U+10FFFF. *)
Lemma decode_vals_inv n b s :
  (length b ≤ n)%nat → Utf8.decode_vals b = Some s →
  Utf8.encode s = b ∧ Forall (fun c => c < 0 ∨ Utf8.scalar c) s.
Proof.
  revert b s. induction n as [|n IH]; intros b s Hn Hdec.
  { destruct b; [|simpl in Hn; lia]. by injection Hdec as <-. }
  destruct b as [|ch s1]; [by injection Hdec as <-|].
  rewrite decode_vals_cons in Hdec. simpl in Hn.
  destruct (Z.ltb_spec ch 0x80).
  { apply fmap_Some in Hdec as (s' & Hs' & ->).
    destruct (IH s1 s') as [Henc Hsc]; [lia | done |].
    split; [|constructor; [unfold Utf8.scalar; lia | done]].
    rewrite encode_cons, Henc. unfold Utf8.encode_char.
    destruct (Z.ltb_spec ch 0x80); [done | lia]. }
  destruct (Z.ltb_spec ch 0xC2); [done|].
  destruct (Z.ltb_spec ch 0xE0).
  { destruct s1 as [|ch2 s2]; [done|]. unfold Utf8.is_continuation in Hdec.
    split_tests_in Hdec.
    apply fmap_Some in Hdec as (s' & Hs' & ->).
    destruct (IH s2 s') as [Henc Hsc]; [simpl in Hn; lia | done |].
    rewrite !Z.shiftl_mul_pow2 by lia.
    split; [|constructor; [unfold Utf8.scalar; lia | done]].
    rewrite encode_cons, Henc. unfold Utf8.encode_char.
    split_tests. simpl. repeat (f_equal; try euclid). }
  destruct (Z.ltb_spec ch 0xF0).
  { destruct s1 as [|ch2 [|ch3 s3]]; [done..|].
    unfold Utf8.is_continuation in Hdec.
    split_tests_in Hdec;
      apply fmap_Some in Hdec as (s' & Hs' & ->);
      (destruct (IH s3 s') as [Henc Hsc]; [simpl in Hn; lia | done |]);
      rewrite !Z.shiftl_mul_pow2 by lia;
      (split; [|constructor; [unfold Utf8.scalar; lia | done]]);
      rewrite encode_cons, Henc; unfold Utf8.encode_char;
      split_tests; simpl; repeat (f_equal; try euclid). }
  destruct (Z.ltb_spec ch 0xF5); [|done].
  destruct s1 as [|ch2 [|ch3 [|ch4 s4]]]; [done..|].
  unfold Utf8.is_continuation in Hdec.
  split_tests_in Hdec;
    apply fmap_Some in Hdec as (s' & Hs' & ->);
    (destruct (IH s4 s') as [Henc Hsc]; [simpl in Hn; lia | done |]);
    rewrite !Z.shiftl_mul_pow2 by lia;
    (split; [|constructor; [unfold Utf8.scalar; lia | done]]);
    rewrite encode_cons, Henc; unfold Utf8.encode_char;
    split_tests; simpl; repeat (f_equal; try euclid).
Qed.

Lemma byte_val_range b : 0 ≤ byte_val b < 256.
Proof. unfold byte_val. pose proof (Byte.to_N_bounded b). lia. Qed.

Lemma encode_nonneg s :
  Forall (fun c => c < 0 ∨ Utf8.scalar c) s → Forall (fun x => 0 ≤ x) (Utf8.encode s) →
  Forall Utf8.scalar s.
Proof.
  induction 1 as [|c s Hc _ IH]; [constructor|].
  rewrite encode_cons. intros [Hhd Htl]%Forall_app. constructor; [|by apply IH].
  destruct Hc as [Hneg|]; [|done]. unfold Utf8.encode_char in Hhd.
  destruct (Z.ltb_spec c 0x80); [|lia]. apply Forall_cons in Hhd as [? _]. lia.
Qed.

(** [bytes] decode to a text exactly when they are the encoding of that
    text and the text has no surrogates and nothing above U+10FFFF. *)
Lemma decode_iff (b : bytes) (s : text) :
  Utf8.decode b = Some s ↔ Forall Utf8.scalar s ∧ Utf8.encode s = byte_val <$> b.
Proof.
  unfold Utf8.decode. split.
  - intros Hdec. destruct (decode_vals_inv _ _ _ (le_n _) Hdec) as [Henc Hsc].
    split; [|done]. apply (encode_nonneg _ Hsc). rewrite Henc.
    apply Forall_fmap, Forall_forall. intros x _. apply byte_val_range.
  - intros [Hsc <-]. by apply decode_encode.
Qed.

(** Bytes below 0x80 decode to themselves. *)
Lemma decode_ascii (b : bytes) :
  Forall (fun x => byte_val x < 0x80) b → Utf8.decode b = Some (byte_val <$> b).
Proof.
  unfold Utf8.decode. induction 1 as [|x b Hx _ IH]; [reflexivity|].
  rewrite fmap_cons, decode_vals_cons, IH.
  destruct (Z.ltb_spec (byte_val x) 0x80); [done | lia].
Qed.

(** *** More on the decoder *)


(** The encoding of a code point from 0x80 on, short of its last byte, does
    not decode. *)
Lemma decode_vals_truncated c :
  Utf8.scalar c → 0x80 ≤ c →
  Utf8.decode_vals (removelast (Utf8.encode_char c)) = None.
Proof.
  intros Hc Hge. unfold Utf8.scalar in Hc. unfold Utf8.encode_char.
  destruct (Z.ltb_spec c 0x80); [lia|].
  destruct (Z.ltb_spec c 0x800); [|destruct (Z.ltb_spec c 0x10000)];
    cbn [removelast]; rewrite decode_vals_cons; unfold Utf8.is_continuation;
    split_tests; reflexivity.
Qed.

Lemma decode_vals_encode_app s rest :
  Forall Utf8.scalar s →
  Utf8.decode_vals (Utf8.encode s ++ rest)
  = (fun t => s ++ t) <$> Utf8.decode_vals rest.
Proof.
  induction 1 as [|c s Hc _ IH].
  - simpl. by destruct (Utf8.decode_vals rest).
  - rewrite encode_cons, <- app_assoc, decode_encode_char, IH by done.
    by destruct (Utf8.decode_vals rest).
Qed.

Lemma encode_app s1 s2 : Utf8.encode (s1 ++ s2) = Utf8.encode s1 ++ Utf8.encode s2.
Proof. unfold Utf8.encode. apply bind_app. Qed.

Lemma encode_char_nonempty c : Utf8.encode_char c ≠ [].
Proof. unfold Utf8.encode_char. by repeat case_match. Qed.

Lemma byte_val_inj b1 b2 : byte_val b1 = byte_val b2 → b1 = b2.
Proof.
  unfold byte_val. intros H%(inj Z.of_N).
  assert (Some b1 = Some b2) as [= ->]; [|done].
  by rewrite <- !Byte.of_to_N, H.
Qed.

Lemma fmap_removelast {A B} (f : A -> B) (l : list A) :
  f <$> removelast l = removelast (f <$> l).
Proof.
  induction l as [|x [|y l] IH]; [done..|].
  change (f x :: (f <$> removelast (y :: l)) = f x :: removelast (f <$> y :: l)).
  by rewrite IH.
Qed.

(** X11. Bytes decode to a text exactly when the text has no surrogates and
    nothing above U+10FFFF and the bytes are its UTF-8 encoding; so no two
    byte strings decode to the same text. *)
Theorem str_utf8_inverts_encode (b : bytes) (s : text) :
  (Utf8.decode b = Some s
   ↔ Forall Utf8.scalar s ∧ Utf8.encode s = byte_val <$> b)
  ∧ (∀ b' : bytes, Utf8.decode b = Some s → Utf8.decode b' = Some s → b' = b).
Proof.
  split; [apply decode_iff|].
  intros b' [_ Hb]%decode_iff [_ Hb']%decode_iff.
  rewrite Hb in Hb'. revert Hb'. clear. revert b.
  induction b' as [|x b' IH]; intros [|y b]; try done.
  rewrite !fmap_cons. intros [= Hxy%byte_val_inj Hrest%eq_sym].
  f_equal; [done|]. apply IH. by symmetry.
Qed.

(** *** Slicing off the last byte *)

Lemma slice_to_minus_one {A} (b : list A) : slice_to (-1) b = removelast b.
Proof.
  unfold slice_to. simpl. rewrite removelast_firstn_len. f_equal. lia.
Qed.


Lemma slice_to_nil {A} : slice_to (-1) (@nil A) = [].
Proof. reflexivity. Qed.

Section Driver.

(** The world outside the driver and its launcher: [launch w argv] is what
    starting [argv] in the world [w] comes to, and the world after it.
    Nothing is assumed of either.

    The driver's own standard output: [encodes c] tells whether its
    encoding and error handler take the code point [c].  Nothing is assumed
    of it either. *)
Context {World : Type} (launch : World -> list string -> launched * World)
        (encodes : Z -> bool).

Record state := {
  world : World;
  heap : gmap loc (list string)
}.

Record behaviour (A : Type) := {
  outcome : A + exception;
  final : state;
  trace : list event
}.
Arguments outcome {A} _.
Arguments final {A} _.
Arguments trace {A} _.

(** A computation: from a state to a value or an exception, the state it
    leaves and what it did on the way. *)
Definition M (A : Type) : Type := state -> behaviour A.

#[global] Instance M_ret : MRet M := fun A a st =>
  {| outcome := inl a; final := st; trace := [] |}.

#[global] Instance M_bind : MBind M := fun A B f m st =>
  let r := m st in
  match outcome r with
  | inl a =>
    let r' := f a (final r) in
    {| outcome := outcome r'; final := final r'; trace := trace r ++ trace r' |}
  | inr e => {| outcome := inr e; final := final r; trace := trace r |}
  end.

Definition raise {A} (e : exception) : M A := fun st =>
  {| outcome := inr e; final := st; trace := [] |}.

(** A list display [[x, y, ...]]: a new list object. *)
Definition new_list (l : list string) : M loc := fun st =>
  let a := fresh (dom (heap st)) in
  {| outcome := inl a;
     final := {| world := world st; heap := <[a := l]> (heap st) |};
     trace := [] |}.

Definition contents (a : loc) : M (list string) := fun st =>
  {| outcome := match heap st !! a with
                | Some l => inl l
                | None => inr (NoSuchObject a)
                end;
     final := st;
     trace := [] |}.

(** Starting [argv] and waiting for it to end, both streams captured. *)
Definition communicate (argv : list string) : M launched := fun st =>
  let '(r, w) := launch (world st) argv in
  {| outcome := inl r;
     final := {| world := w; heap := heap st |};
     trace := [Launch argv r] |}.

(** [subprocess.run(args, capture_output=True, check=True)]. *)
Definition subprocess_run (args : loc) : M CompletedProcess :=
  argv ← contents args;
  r ← communicate argv;
  match r with
  | NotStarted => raise (LaunchError argv)
  | Exited returncode out err =>
    if returncode =? 0
    then mret {| cp_args := args; cp_returncode := returncode;
                 cp_stdout := out; cp_stderr := err |}
    else raise (CalledProcessError returncode argv out err)
  end.

(** [str(b, encoding="utf-8")]. *)
Definition str_utf8 (b : bytes) : M text :=
  match Utf8.decode b with
  | Some s => mret s
  | None => raise (UnicodeDecodeError b)
  end.

(** [print(s)]: the text and then a newline go to the standard output,
    whose encoder raises on a text it cannot encode, before any of it is
    written.  The newline is in every encoding a stream can have.  The stream
    buffers what it is given; errors of the device behind it are not part of
    the model. *)
Definition print (s : text) : M unit := fun st =>
  if forallb encodes s
  then {| outcome := inl (); final := st; trace := [Print s] |}
  else {| outcome := inr (UnicodeEncodeError s); final := st; trace := [] |}.

(** [for x in l: body], over a list nothing writes to. *)
Fixpoint for_each {A} (l : list A) (body : A -> M unit) : M unit :=
  match l with
  | [] => mret ()
  | x :: l => body x ;; for_each l body
  end.

(** [range(start, stop)]. *)
Definition range (start stop : Z) : list Z := seqZ start (stop - start).

(** *** The script *)

Definition run (args : loc) : M unit :=
  result ← subprocess_run args;
  s ← str_utf8 (slice_to (-1) (cp_stdout result));
  print s.

Definition comparison : string := "./target/release/examples/comparison".

Definition dimensions : list string := ["1"; "8"; "64"; "256"].

Definition dimensions_loop : M unit :=
  for_each dimensions (fun dimension =>
    args ← new_list [comparison; "-f"; "prio"; "-d"; dimension; "-c"; "10000"];
    for_each (range 0 5) (fun _ => run args) ;;
    args ← new_list [comparison; "-f"; "dprio"; "-d"; dimension; "-c"; "10000"];
    for_each (range 0 5) (fun _ => run args)).

Definition clients : list string := ["10000"; "100000"; "1000000"].

Definition clients_loop : M unit :=
  for_each clients (fun n_clients =>
    args ← new_list [comparison; "-f"; "prio"; "-d"; "1"; "-c"; n_clients];
    for_each (range 0 5) (fun _ => run args) ;;
    args ← new_list [comparison; "-f"; "dprio"; "-d"; "1"; "-c"; n_clients];
    for_each (range 0 5) (fun _ => run args)).

Definition script : M unit := dimensions_loop ;; clients_loop.

(** The state the interpreter starts the script in. *)
Definition initial (w : World) : state := {| world := w; heap := ∅ |}.

(** A state in which the list object 0 holds [argv]. *)
Definition holding (w : World) (argv : list string) : state :=
  {| world := w; heap := {[ 0%nat := argv ]} |}.

(** *** The sweep as the specification words it *)

Definition modes : list string := ["prio"; "dprio"].

Definition repetitions : nat := 5.

Definition dimension_args (mode d : string) : list string :=
  [comparison; "-f"; mode; "-d"; d; "-c"; "10000"].

Definition client_args (mode c : string) : list string :=
  [comparison; "-f"; mode; "-d"; "1"; "-c"; c].

Definition dimension_grid : list (list string) :=
  d ← dimensions; mode ← modes; replicate repetitions (dimension_args mode d).

Definition client_grid : list (list string) :=
  c ← clients; mode ← modes; replicate repetitions (client_args mode c).

Definition sweep : list (list string) := dimension_grid ++ client_grid.

(** *** One launch, seen from [run] *)

(** The line [run] prints for a launch, when it prints one. *)
Definition reading (r : launched) : option text :=
  match decoding r with
  | Some s => if forallb encodes s then Some s else None
  | None => None
  end.

(** The call of [run] for the launch returns normally: the subprocess exited
    with status 0, what it wrote, less the last byte, is UTF-8, and the
    standard output encodes the text. *)
Definition went_through (r : launched) : Prop := is_Some (reading r).

(** Launching the argument vectors of a list in turn, each followed by
    its line, up to the first launch that fails. *)
Fixpoint play (l : list (list string)) (w : World)
  : (unit + exception) * World * list event :=
  match l with
  | [] => (inl (), w, [])
  | argv :: l =>
    let '(r, w1) := launch w argv in
    match reading r with
    | Some s =>
      let '(o, w2, t) := play l w1 in (o, w2, Launch argv r :: Print s :: t)
    | None => (inr (failure argv r), w1, [Launch argv r])
    end
  end.

(** What shows of a computation from the outside. *)
Definition observe (r : behaviour unit) : (unit + exception) * World * list event :=
  (outcome r, world (final r), trace r).

(** [m] does what playing [l] does, whatever the heap. *)
Definition plays (m : M unit) (l : list (list string)) : Prop :=
  ∀ st, observe (m st) = play l (world st).

(** What the launcher answers to a list of argument vectors, each started in
    the world the one before left, and the world after the last. *)
Fixpoint answers (w : World) (l : list (list string)) : list launched * World :=
  match l with
  | [] => ([], w)
  | argv :: l =>
    let '(r, w1) := launch w argv in
    let '(rs, w2) := answers w1 l in (r :: rs, w2)
  end.


(** [m] leaves every list object it finds as it is and makes at most [n]
    new ones, [n] when it ends normally. *)
Definition grows {A} (m : M A) (n : nat) : Prop :=
  ∀ st,
    heap st ⊆ heap (final (m st))
    ∧ (size (heap (final (m st))) ≤ size (heap st) + n)%nat
    ∧ (∀ a, outcome (m st) = inl a →
         size (heap (final (m st))) = (size (heap st) + n)%nat).

(** ** Properties *)

Lemma bind_eq {A B} (m : M A) (f : A -> M B) st :
  (m ≫= f) st =
  match outcome (m st) with
  | inl a =>
    {| outcome := outcome (f a (final (m st)));
       final := final (f a (final (m st)));
       trace := trace (m st) ++ trace (f a (final (m st))) |}
  | inr e => {| outcome := inr e; final := final (m st); trace := trace (m st) |}
  end.
Proof. reflexivity. Qed.

Lemma reading_decoding r s :
  reading r = Some s ↔ decoding r = Some s ∧ forallb encodes s = true.
Proof.
  unfold reading. destruct (decoding r) as [s'|]; [|split; [done | by intros [? _]]].
  destruct (forallb encodes s') eqn:He.
  - split; [by intros [= ->] | by intros [[= ->] _]].
  - split; [done | intros [[= ->] ?]; congruence].
Qed.

Lemma went_through_succeeded r : went_through r → succeeded r.
Proof.
  intros [s [Hs _]%reading_decoding]. apply decoding_succeeded. by eexists.
Qed.

#[global] Instance went_through_dec r : Decision (went_through r).
Proof. unfold went_through. apply _. Defined.

(** One call of [run] on a live list: one launch, then its line or its
    exception; the heap stays as it was. *)
Lemma run_eq args argv st :
  heap st !! args = Some argv →
  run args st =
  let r := (launch (world st) argv).1 in
  {| outcome := match reading r with
                | Some _ => inl ()
                | None => inr (failure argv r)
                end;
     final := {| world := (launch (world st) argv).2; heap := heap st |};
     trace := Launch argv r ::
              match reading r with Some s => [Print s] | None => [] end |}.
Proof.
  intros Hargs. unfold run, subprocess_run.
  rewrite !bind_eq. unfold contents at 1 2 3. simpl. rewrite Hargs. simpl.
  rewrite !bind_eq. unfold communicate. simpl.
  destruct (launch (world st) argv) as [r w]. simpl.
  destruct r as [|rc out err]; simpl; [reflexivity|].
  unfold reading. simpl.
  destruct (rc =? 0); simpl; [|reflexivity].
  unfold str_utf8. destruct (Utf8.decode (slice_to (-1) out)) as [s|];
    [|reflexivity].
  simpl. unfold print. simpl.
  destruct (forallb encodes s); reflexivity.
Qed.

Lemma run_heap args st : heap (final (run args st)) = heap st.
Proof.
  destruct (heap st !! args) as [argv|] eqn:Hargs.
  - rewrite (run_eq _ _ _ Hargs). reflexivity.
  - unfold run, subprocess_run. rewrite !bind_eq.
    unfold contents at 1 2 3. simpl. rewrite Hargs. reflexivity.
Qed.

Lemma for_each_heap {A} (l : list A) (body : A -> M unit) st :
  (∀ x st, heap (final (body x st)) = heap st) →
  heap (final (for_each l body st)) = heap st.
Proof.
  intros Hbody. revert st. induction l as [|x l IH]; intros st; [reflexivity|].
  simpl. rewrite bind_eq.
  destruct (outcome (body x st)); simpl; [rewrite IH|]; apply Hbody.
Qed.

(** *** Playing a list of argument vectors *)

Lemma play_app l1 l2 w :
  play (l1 ++ l2) w =
  match play l1 w with
  | (inl _, w1, t1) => let '(o, w2, t2) := play l2 w1 in (o, w2, t1 ++ t2)
  | (inr e, w1, t1) => (inr e, w1, t1)
  end.
Proof.
  revert w. induction l1 as [|argv l1 IH]; intros w; simpl.
  - destruct (play l2 w) as [[o w2] t2]. reflexivity.
  - destruct (launch w argv) as [r w1].
    destruct (reading r) as [s|]; [|reflexivity].
    rewrite IH. destruct (play l1 w1) as [[[[]|e] w2] t1]; [|reflexivity].
    destruct (play l2 w2) as [[o w3] t2]. reflexivity.
Qed.

Lemma seq_observe (m1 m2 : M unit) l1 l2 st :
  observe (m1 st) = play l1 (world st) → plays m2 l2 →
  observe ((m1 ;; m2) st) = play (l1 ++ l2) (world st).
Proof.
  intros H1 H2. rewrite bind_eq, play_app, <- H1. unfold observe.
  destruct (outcome (m1 st)) as [[]|e]; simpl; [|reflexivity].
  rewrite <- H2. reflexivity.
Qed.

Lemma plays_seq m1 m2 l1 l2 :
  plays m1 l1 → plays m2 l2 → plays (m1 ;; m2) (l1 ++ l2).
Proof. intros H1 H2 st. apply seq_observe; [apply H1 | exact H2]. Qed.

Lemma plays_for_each {A} (l : list A) (body : A -> M unit) f :
  (∀ x, plays (body x) (f x)) → plays (for_each l body) (l ≫= f).
Proof.
  intros Hbody. induction l as [|x l IH]; [intros st; reflexivity|].
  simpl. apply plays_seq; [apply Hbody | apply IH].
Qed.

(** Calling [run] once per element of [xs] on the same live list plays
    that list's contents as many times. *)
Lemma runs_play {A} (xs : list A) args argv st :
  heap st !! args = Some argv →
  observe (for_each xs (fun _ => run args) st)
  = play (replicate (length xs) argv) (world st).
Proof.
  revert st. induction xs as [|x xs IH]; intros st Hargs; [reflexivity|].
  simpl. rewrite bind_eq, (run_eq _ _ _ Hargs). simpl.
  destruct (launch (world st) argv) as [r w1]. simpl.
  destruct (reading r) as [s|]; [|reflexivity].
  specialize (IH {| world := w1; heap := heap st |} Hargs). simpl in IH.
  rewrite <- IH. reflexivity.
Qed.

(** A list display bound to [args], then the repeated calls on it. *)
Lemma block_plays {A} (xs : list A) argv :
  plays (args ← new_list argv; for_each xs (fun _ => run args))
        (replicate (length xs) argv).
Proof.
  intros st. rewrite bind_eq. simpl.
  set (st1 := {| world := world st; heap := _ |}).
  etrans; [|apply (runs_play xs (fresh (dom (heap st))) argv st1),
                  lookup_insert_eq].
  reflexivity.
Qed.

Lemma block_then_plays {A} (xs : list A) argv (k : M unit) l :
  plays k l →
  plays (args ← new_list argv; for_each xs (fun _ => run args) ;; k)
        (replicate (length xs) argv ++ l).
Proof.
  intros Hk st. rewrite bind_eq. simpl.
  set (st1 := {| world := world st; heap := _ |}).
  etrans; [|apply (seq_observe _ k _ l st1
                     (runs_play xs (fresh (dom (heap st))) argv st1
                        (lookup_insert_eq _ _ _)) Hk)].
  reflexivity.
Qed.

Lemma dimensions_loop_plays : plays dimensions_loop dimension_grid.
Proof.
  apply (plays_for_each dimensions _ (fun d => mode ← modes;
    replicate repetitions (dimension_args mode d))).
  intros d.
  exact (block_then_plays (range 0 5) _ _ _ (block_plays (range 0 5) _)).
Qed.

Lemma clients_loop_plays : plays clients_loop client_grid.
Proof.
  apply (plays_for_each clients _ (fun c => mode ← modes;
    replicate repetitions (client_args mode c))).
  intros c.
  exact (block_then_plays (range 0 5) _ _ _ (block_plays (range 0 5) _)).
Qed.

Lemma script_plays : plays script sweep.
Proof. apply plays_seq; [apply dimensions_loop_plays | apply clients_loop_plays]. Qed.

(** The launches of a play are the first so many of its list. *)
Lemma play_prefix l w : invocations (play l w).2 `prefix_of` l.
Proof.
  revert w. induction l as [|argv l IH]; intros w; simpl; [done|].
  destruct (launch w argv) as [r w1].
  destruct (reading r) as [s|].
  - specialize (IH w1). destruct (play l w1) as [[o w2] t].
    apply (prefix_cons argv), IH.
  - apply (prefix_cons argv), prefix_nil.
Qed.

(** A play none of whose launches failed went through its whole list and
    printed one line per launch. *)
Lemma play_succeeded l w :
  Forall went_through (launches (play l w).2).*2 →
  (play l w).1.1 = inl () ∧ invocations (play l w).2 = l
  ∧ Some <$> printed (play l w).2 = reading <$> (launches (play l w).2).*2.
Proof.
  revert w. induction l as [|argv l IH]; intros w; simpl; [done|].
  destruct (launch w argv) as [r w1].
  destruct (reading r) as [s|] eqn:Hr.
  - specialize (IH w1). destruct (play l w1) as [[o w2] t]. simpl in *.
    intros Hall. apply Forall_cons in Hall as [_ Hall].
    destruct (IH Hall) as (-> & Hl & Hp).
    split; [done|]. split; [rewrite <- Hl; reflexivity|].
    rewrite Hr. f_equal. exact Hp.
  - simpl. intros Hall. apply Forall_cons in Hall as [Hs _].
    destruct Hs as [s Hs]. congruence.
Qed.

(** A launch that failed is the last thing a play did, and the play ends
    with that launch's exception. *)
Lemma play_failed l w pre argv r post :
  launches (play l w).2 = pre ++ (argv, r) :: post → ¬ went_through r →
  post = [] ∧ (play l w).1.1 = inr (failure argv r)
  ∧ (play l w).2 = (play (take (length pre) l) w).2 ++ [Launch argv r]
  ∧ length (printed (play l w).2) = length pre.
Proof.
  revert w pre. induction l as [|argv' l IH]; intros w pre; simpl.
  - intros Hnil. by destruct pre.
  - destruct (launch w argv') as [r' w1] eqn:Hlaunch.
    destruct (reading r') as [s|] eqn:Hr.
    + specialize (IH w1). destruct (play l w1) as [[o w2] t].
      intros Heq Hfail. destruct pre as [|p pre].
      * injection Heq as -> -> _. destruct Hfail.
        unfold went_through. by rewrite Hr.
      * injection Heq as _ Heq. destruct (IH pre Heq Hfail) as (-> & Ho & Ht & Hlen).
        simpl in *. rewrite Hlaunch, Hr.
        destruct (play (take (length pre) l) w1) as [[o' w'] t']. simpl in *.
        split_and!; [done | done | by rewrite Ht at 1 | by rewrite Hlen].
    + intros Heq _. destruct pre as [|p pre].
      * injection Heq as <- <- <-. done.
      * injection Heq as _ Heq. by destruct pre.
Qed.

(** A play never ends on a reference to nothing. *)
Lemma play_no_dangling l w a : (play l w).1.1 ≠ inr (NoSuchObject a).
Proof.
  revert w. induction l as [|argv l IH]; intros w; simpl; [done|].
  destruct (launch w argv) as [r w1].
  destruct (reading r) as [s|] eqn:Hr.
  - specialize (IH w1). by destruct (play l w1) as [[o w2] t].
  - simpl. destruct r as [|rc out err]; simpl; [done|].
    destruct (rc =? 0); [|done]. by destruct (Utf8.decode (slice_to (-1) out)).
Qed.

Lemma plays_no_dangling m l st a :
  plays m l → outcome (m st) ≠ inr (NoSuchObject a).
Proof.
  intros H. pose proof (play_no_dangling l (world st) a) as Hp.
  rewrite <- H in Hp. exact Hp.
Qed.

Lemma script_no_dangling st a : outcome (script st) ≠ inr (NoSuchObject a).
Proof. apply (plays_no_dangling script sweep), script_plays. Qed.

(** The same three facts for any computation that plays a list. *)
Lemma plays_prefix m l st : plays m l → invocations (trace (m st)) `prefix_of` l.
Proof. intros H. pose proof (play_prefix l (world st)) as Hp. by rewrite <- H in Hp. Qed.

Lemma plays_succeeded m l st :
  plays m l → Forall went_through (launches (trace (m st))).*2 →
  outcome (m st) = inl () ∧ invocations (trace (m st)) = l
  ∧ Some <$> printed (trace (m st)) = reading <$> (launches (trace (m st))).*2.
Proof.
  intros H. pose proof (play_succeeded l (world st)) as Hp. by rewrite <- H in Hp.
Qed.

Lemma plays_failed m l st pre argv r post :
  plays m l →
  launches (trace (m st)) = pre ++ (argv, r) :: post → ¬ went_through r →
  post = [] ∧ outcome (m st) = inr (failure argv r)
  ∧ (∃ t, trace (m st) = t ++ [Launch argv r])
  ∧ length (printed (trace (m st))) = length pre.
Proof.
  intros H. pose proof (play_failed l (world st) pre argv r post) as Hp.
  rewrite <- H in Hp. simpl in Hp. intros Heq Hfail.
  destruct (Hp Heq Hfail) as (? & ? & ? & ?). eauto 10.
Qed.

(** A play that ends normally had no failed launch. *)
Lemma play_normal l w :
  (play l w).1.1 = inl () → Forall went_through (launches (play l w).2).*2.
Proof.
  revert w. induction l as [|argv l IH]; intros w; simpl; [constructor|].
  destruct (launch w argv) as [r w1].
  destruct (reading r) as [s|] eqn:Hr; [|done].
  specialize (IH w1). destruct (play l w1) as [[o w2] t]. simpl in *.
  intros Ho. constructor; [|by apply IH].
  unfold went_through. by rewrite Hr.
Qed.

Lemma plays_normal m l st :
  plays m l → outcome (m st) = inl () →
  Forall went_through (launches (trace (m st))).*2.
Proof.
  intros H. pose proof (play_normal l (world st)) as Hp.
  rewrite <- H in Hp. exact Hp.
Qed.

Lemma plays_went_through m l st :
  plays m l →
  (Forall went_through (launches (trace (m st))).*2 ↔ outcome (m st) = inl ())
  ∧ (outcome (m st) = inl () → invocations (trace (m st)) = l).
Proof.
  intros H. split; [split|].
  - intros Hall. by destruct (plays_succeeded m l st H Hall).
  - by apply (plays_normal m l).
  - intros Ho.
    by destruct (plays_succeeded m l st H (plays_normal m l st H Ho)) as (_ & ? & _).
Qed.

(** *** What one call of [run] does *)


(** C5. When the subprocess exits with a status other than 0, [run] raises
    [CalledProcessError] carrying the argument vector and the status and
    prints nothing; in a run of the script such a launch is the last one,
    the script ends with that exception, and the lines printed are those
    of the launches before it. *)
Theorem run_nonzero_exit st args argv returncode out err w1 :
  heap st !! args = Some argv →
  launch (world st) argv = (Exited returncode out err, w1) →
  returncode ≠ 0 →
  run args st =
    {| outcome := inr (CalledProcessError returncode argv out err);
       final := {| world := w1; heap := heap st |};
       trace := [Launch argv (Exited returncode out err)] |}
  ∧ printed (trace (run args st)) = []
  ∧ (∀ st0 pre post,
       launches (trace (script st0))
         = pre ++ (argv, Exited returncode out err) :: post →
       post = []
       ∧ outcome (script st0) = inr (CalledProcessError returncode argv out err)
       ∧ length (printed (trace (script st0))) = length pre).
Proof.
  intros Hargs Hlaunch Hrc. rewrite (run_eq _ _ _ Hargs), Hlaunch.
  unfold reading. simpl.
  apply Z.eqb_neq in Hrc as Hrcb. rewrite Hrcb. split_and!; [done..|].
  intros st0 pre post Heq.
  destruct (plays_failed script sweep st0 pre argv _ post script_plays Heq)
    as (-> & Ho & _ & Hlen).
  { unfold went_through, reading. simpl. rewrite Hrcb. by intros [? ?]. }
  simpl in Ho. rewrite Hrcb in Ho. done.
Qed.

(** C6. When the subprocess exits with status 0 and what it wrote, less
    the last byte, is not UTF-8, [run] raises [UnicodeDecodeError] and
    prints nothing; in a run of the script such a launch is the last one
    and the script ends with that exception. *)
Theorem run_undecodable st args argv out err w1 :
  heap st !! args = Some argv →
  launch (world st) argv = (Exited 0 out err, w1) →
  Utf8.decode (slice_to (-1) out) = None →
  run args st =
    {| outcome := inr (UnicodeDecodeError (slice_to (-1) out));
       final := {| world := w1; heap := heap st |};
       trace := [Launch argv (Exited 0 out err)] |}
  ∧ (∀ st0 pre post,
       launches (trace (script st0)) = pre ++ (argv, Exited 0 out err) :: post →
       post = []
       ∧ outcome (script st0) = inr (UnicodeDecodeError (slice_to (-1) out))
       ∧ length (printed (trace (script st0))) = length pre).
Proof.
  intros Hargs Hlaunch Hdec. rewrite (run_eq _ _ _ Hargs), Hlaunch.
  unfold reading. simpl. rewrite Hdec. split; [done|].
  intros st0 pre post Heq.
  destruct (plays_failed script sweep st0 pre argv _ post script_plays Heq)
    as (-> & Ho & _ & Hlen).
  { unfold went_through, reading. simpl. rewrite Hdec. by intros [? ?]. }
  simpl in Ho. rewrite Hdec in Ho. done.
Qed.

(** C8. When the subprocess exits with status 0 having written nothing,
    the slice of the empty output is empty, [run] raises nothing and
    prints one empty line. *)
Theorem run_empty_stdout st args argv err w1 :
  heap st !! args = Some argv →
  launch (world st) argv = (Exited 0 [] err, w1) →
  slice_to (-1) (@nil byte) = []
  ∧ run args st =
      {| outcome := inl ();
         final := {| world := w1; heap := heap st |};
         trace := [Launch argv (Exited 0 [] err); Print []] |}
  ∧ stdout_text (trace (run args st)) = [newline].
Proof.
  intros Hargs Hlaunch. rewrite (run_eq _ _ _ Hargs), Hlaunch. done.
Qed.

(** C9. [run] leaves every list object as it found it, the one it is
    given included; so the list the driver builds once and hands to the
    five calls in a row still holds the same strings after each call and
    after all of them. *)
Theorem run_keeps_args args st :
  heap (final (run args st)) = heap st
  ∧ heap (final (run args st)) !! args = heap st !! args
  ∧ (∀ argv,
       let r := (args ← new_list argv;
                 for_each (range 0 5) (fun _ => run args)) st in
       heap (final r) = <[fresh (dom (heap st)) := argv]> (heap st)
       ∧ heap (final r) !! fresh (dom (heap st)) = Some argv).
Proof.
  split_and!; [apply run_heap | by rewrite run_heap |].
  intros argv. rewrite bind_eq. cbn -[for_each range].
  assert (∀ st1, heap (final (for_each (range 0 5)
            (fun _ => run (fresh (dom (heap st)))) st1)) = heap st1) as Hloop
    by (intros st1; apply for_each_heap; intros _ st2; apply run_heap).
  rewrite Hloop. split; [done | apply lookup_insert_eq].
Qed.

(** *** The loops *)

Lemma dimension_grid_blocks :
  dimension_grid = concat (replicate 5 <$>
    [dimension_args "prio" "1"; dimension_args "dprio" "1";
     dimension_args "prio" "8"; dimension_args "dprio" "8";
     dimension_args "prio" "64"; dimension_args "dprio" "64";
     dimension_args "prio" "256"; dimension_args "dprio" "256"]).
Proof. reflexivity. Qed.

Lemma client_grid_blocks :
  client_grid = concat (replicate 5 <$>
    [client_args "prio" "10000"; client_args "dprio" "10000";
     client_args "prio" "100000"; client_args "dprio" "100000";
     client_args "prio" "1000000"; client_args "dprio" "1000000"]).
Proof. reflexivity. Qed.

(** Whatever the subprocesses do, the launches of the script are the first
    so many of the sweep. *)
Lemma script_prefix st : invocations (trace (script st)) `prefix_of` sweep.
Proof. apply plays_prefix, script_plays. Qed.

Lemma dimensions_loop_prefix st :
  invocations (trace (dimensions_loop st)) `prefix_of` dimension_grid.
Proof. apply plays_prefix, dimensions_loop_plays. Qed.

Lemma clients_loop_prefix st :
  invocations (trace (clients_loop st)) `prefix_of` client_grid.
Proof. apply plays_prefix, clients_loop_plays. Qed.

(** C1, amended. A run of the dimensions loop in which no call of [run]
    raises, that is one in which every launch goes through (the subprocess
    starts and exits with status 0, its output less the last byte is UTF-8,
    and the driver's standard output encodes the text), launches, for each
    dimension in the order 1, 8, 64, 256 and for "prio" then "dprio", the
    vector [comparison, "-f", mode, "-d", d, "-c", "10000"] five times in a
    row before the next pair. *)
Theorem dimensions_loop_invocations st :
  (Forall went_through (launches (trace (dimensions_loop st))).*2
   ↔ outcome (dimensions_loop st) = inl ())
  ∧ (outcome (dimensions_loop st) = inl () →
     invocations (trace (dimensions_loop st)) =
       concat (replicate 5 <$>
         [[comparison; "-f"; "prio"; "-d"; "1"; "-c"; "10000"];
          [comparison; "-f"; "dprio"; "-d"; "1"; "-c"; "10000"];
          [comparison; "-f"; "prio"; "-d"; "8"; "-c"; "10000"];
          [comparison; "-f"; "dprio"; "-d"; "8"; "-c"; "10000"];
          [comparison; "-f"; "prio"; "-d"; "64"; "-c"; "10000"];
          [comparison; "-f"; "dprio"; "-d"; "64"; "-c"; "10000"];
          [comparison; "-f"; "prio"; "-d"; "256"; "-c"; "10000"];
          [comparison; "-f"; "dprio"; "-d"; "256"; "-c"; "10000"]])
     ∧ invocations (trace (dimensions_loop st)) = dimension_grid).
Proof.
  destruct (plays_went_through _ _ st dimensions_loop_plays) as [Hiff Hinv].
  split; [exact Hiff|]. intros Ho. rewrite (Hinv Ho). done.
Qed.

(** C2, amended. A run of the clients loop in which no call of [run] raises,
    that is one in which every launch goes through (the subprocess starts
    and exits with status 0, its output less the last byte is UTF-8, and
    the driver's standard output encodes the text), launches, for each
    client count in the order 10000, 100000, 1000000 and for "prio" then
    "dprio", the vector [comparison, "-f", mode, "-d", "1", "-c", c] five
    times in a row before the next pair. *)
Theorem clients_loop_invocations st :
  (Forall went_through (launches (trace (clients_loop st))).*2
   ↔ outcome (clients_loop st) = inl ())
  ∧ (outcome (clients_loop st) = inl () →
     invocations (trace (clients_loop st)) =
       concat (replicate 5 <$>
         [[comparison; "-f"; "prio"; "-d"; "1"; "-c"; "10000"];
          [comparison; "-f"; "dprio"; "-d"; "1"; "-c"; "10000"];
          [comparison; "-f"; "prio"; "-d"; "1"; "-c"; "100000"];
          [comparison; "-f"; "dprio"; "-d"; "1"; "-c"; "100000"];
          [comparison; "-f"; "prio"; "-d"; "1"; "-c"; "1000000"];
          [comparison; "-f"; "dprio"; "-d"; "1"; "-c"; "1000000"]])
     ∧ invocations (trace (clients_loop st)) = client_grid).
Proof.
  destruct (plays_went_through _ _ st clients_loop_plays) as [Hiff Hinv].
  split; [exact Hiff|]. intros Ho. rewrite (Hinv Ho). done.
Qed.

(** C3, amended. A run of the script in which no call of [run] raises,
    that is one in which every launch goes through (the subprocess starts
    and exits with status 0, its output less the last byte is UTF-8, and
    the driver's standard output encodes the text), makes 70 launches, the
    40 of the dimension grid and then the 30 of the client grid, each grid
    in the order of its values and, for each value, five times "prio" and
    then five times "dprio". *)
Theorem script_invocations st :
  (Forall went_through (launches (trace (script st))).*2
   ↔ outcome (script st) = inl ())
  ∧ (outcome (script st) = inl () →
     invocations (trace (script st)) = dimension_grid ++ client_grid
     ∧ length (invocations (trace (script st))) = 70%nat
     ∧ length dimension_grid = 40%nat ∧ length client_grid = 30%nat
     ∧ dimension_grid = concat (replicate 5 <$> (d ← dimensions;
                          [dimension_args "prio" d; dimension_args "dprio" d]))
     ∧ client_grid = concat (replicate 5 <$> (c ← clients;
                       [client_args "prio" c; client_args "dprio" c]))).
Proof.
  destruct (plays_went_through _ _ st script_plays) as [Hiff Hinv].
  split; [exact Hiff|]. intros Ho. rewrite (Hinv Ho). done.
Qed.

(** *** More on a play *)


Lemma play_printed l w :
  printed (play l w).2 = omap reading (launches (play l w).2).*2.
Proof.
  revert w. induction l as [|argv l IH]; intros w; simpl; [done|].
  destruct (launch w argv) as [r w1].
  destruct (reading r) as [s|] eqn:Hr.
  - specialize (IH w1). destruct (play l w1) as [[o w2] t]. simpl in *.
    rewrite Hr. f_equal. exact IH.
  - simpl. by rewrite Hr.
Qed.

(** A play that ends with an exception made one launch more than it printed
    lines; one that ends normally, as many. *)
Lemma play_counts l w :
  length (launches (play l w).2)
  = match (play l w).1.1 with
    | inl _ => length (printed (play l w).2)
    | inr _ => S (length (printed (play l w).2))
    end.
Proof.
  revert w. induction l as [|argv l IH]; intros w; simpl; [done|].
  destruct (launch w argv) as [r w1].
  destruct (reading r) as [s|] eqn:Hr; [|done].
  specialize (IH w1). destruct (play l w1) as [[o w2] t]. simpl in *.
  rewrite IH. by destruct o.
Qed.

(** The launches of a play are the launcher's answers, each asked in the
    world the one before left. *)
Lemma play_answers l w :
  answers w (invocations (play l w).2)
  = ((launches (play l w).2).*2, (play l w).1.2).
Proof.
  revert w. induction l as [|argv l IH]; intros w; simpl; [done|].
  destruct (launch w argv) as [r w1] eqn:Hlaunch.
  destruct (reading r) as [s|] eqn:Hr.
  - specialize (IH w1). destruct (play l w1) as [[o w2] t]. cbn [fst snd] in *.
    change (invocations (Launch argv r :: Print s :: t))
      with (argv :: invocations t).
    cbn [answers]. rewrite Hlaunch, IH. reflexivity.
  - cbn [fst snd]. change (invocations [Launch argv r]) with [argv].
    cbn [answers]. rewrite Hlaunch. reflexivity.
Qed.


Lemma plays_printed m l st :
  plays m l → printed (trace (m st)) = omap reading (launches (trace (m st))).*2.
Proof.
  intros H. pose proof (play_printed l (world st)) as Hp.
  rewrite <- H in Hp. exact Hp.
Qed.

Lemma plays_counts m l st :
  plays m l →
  length (launches (trace (m st)))
  = match outcome (m st) with
    | inl _ => length (printed (trace (m st)))
    | inr _ => S (length (printed (trace (m st))))
    end.
Proof.
  intros H. pose proof (play_counts l (world st)) as Hp. specialize (H st).
  destruct (play l (world st)) as [[o w] t]. injection H as Ho _ Ht.
  rewrite Ho, Ht. exact Hp.
Qed.

Lemma plays_answers m l st :
  plays m l →
  answers (world st) (invocations (trace (m st)))
  = ((launches (trace (m st))).*2, world (final (m st))).
Proof.
  intros H. pose proof (play_answers l (world st)) as Hp.
  rewrite <- H in Hp. exact Hp.
Qed.

Lemma plays_same_world m l st1 st2 :
  plays m l → world st1 = world st2 → observe (m st1) = observe (m st2).
Proof. intros H Hw. by rewrite !H, Hw. Qed.


(** *** The heap under the script *)

Lemma grows_run args : grows (run args) 0.
Proof. intros st. rewrite run_heap. split_and!; [done | lia | intros; lia]. Qed.

Lemma grows_new_list l : grows (new_list l) 1.
Proof.
  intros st. simpl.
  assert (heap st !! fresh (dom (heap st)) = None) as Hfresh
    by apply not_elem_of_dom, is_fresh.
  rewrite map_size_insert_None by done.
  split_and!; [by apply insert_subseteq | lia | intros; lia].
Qed.

Lemma grows_bind {A B} (m : M A) (f : A -> M B) a b :
  grows m a → (∀ x, grows (f x) b) → grows (m ≫= f) (a + b).
Proof.
  intros Hm Hf st. rewrite bind_eq. destruct (Hm st) as (Hsub & Hle & Heq).
  destruct (outcome (m st)) as [x|e]; simpl.
  - destruct (Hf x (final (m st))) as (Hsub' & Hle' & Heq').
    specialize (Heq x eq_refl).
    split_and!; [by etrans | lia | intros y Hy; rewrite (Heq' y Hy); lia].
  - split_and!; [done | lia | done].
Qed.

Lemma grows_for_each {A} (l : list A) (body : A -> M unit) n :
  (∀ x, grows (body x) n) → grows (for_each l body) (length l * n).
Proof.
  intros Hbody. induction l as [|x l IH].
  - intros st. simpl. split_and!; [done | lia | intros; lia].
  - apply (grows_bind (body x) (fun _ => for_each l body) n (length l * n));
      [apply Hbody | intros _; apply IH].
Qed.

Lemma block_grows argv (k : M unit) n :
  grows k n →
  grows (args ← new_list argv; for_each (range 0 5) (fun _ => run args) ;; k) (S n).
Proof.
  intros Hk. apply (grows_bind _ _ 1 n); [apply grows_new_list|].
  intros args. apply (grows_bind _ _ 0 n); [|intros _; exact Hk].
  apply (grows_for_each (range 0 5) (fun _ => run args) 0). intros _. apply grows_run.
Qed.

Lemma last_block_grows argv :
  grows (args ← new_list argv; for_each (range 0 5) (fun _ => run args)) 1.
Proof.
  apply (grows_bind _ _ 1 0); [apply grows_new_list|].
  intros args. apply (grows_for_each (range 0 5) (fun _ => run args) 0).
  intros _. apply grows_run.
Qed.

Lemma dimensions_loop_grows : grows dimensions_loop 8.
Proof.
  apply (grows_for_each dimensions _ 2). intros d.
  apply block_grows, last_block_grows.
Qed.

Lemma clients_loop_grows : grows clients_loop 6.
Proof.
  apply (grows_for_each clients _ 2). intros c.
  apply block_grows, last_block_grows.
Qed.

(** *** The script as a whole *)


(** X2. Whatever the subprocesses do, the argument vectors the script hands
    to the launcher are the first so many of the sweep, in the sweep's
    order, and there are at most 70 of them. *)
Theorem script_stays_on_schedule st :
  invocations (trace (script st)) `prefix_of` sweep
  ∧ (length (invocations (trace (script st))) ≤ 70)%nat.
Proof.
  pose proof (plays_prefix script sweep st script_plays) as Hpre.
  split; [exact Hpre|]. apply prefix_length in Hpre. exact Hpre.
Qed.



(** X5. The script has launched as many subprocesses as it has printed
    lines when it ends normally, and one more when it ends with an
    exception: the launch that failed. *)
Theorem script_launches_and_lines st :
  length (launches (trace (script st)))
  = match outcome (script st) with
    | inl _ => length (printed (trace (script st)))
    | inr _ => S (length (printed (trace (script st))))
    end.
Proof. apply (plays_counts script sweep), script_plays. Qed.

(** X6. The script changes no list object that was there when it started;
    it makes at most 14 new ones, one for each pair of a value and a mode,
    and exactly 14 when it ends normally. *)
Theorem script_heap st :
  heap st ⊆ heap (final (script st))
  ∧ (size (heap (final (script st))) ≤ size (heap st) + 14)%nat
  ∧ (outcome (script st) = inl () →
       size (heap (final (script st))) = (size (heap st) + 14)%nat).
Proof.
  assert (grows script 14) as Hg.
  { apply (grows_bind dimensions_loop (fun _ => clients_loop) 8 6);
      [apply dimensions_loop_grows | intros _; apply clients_loop_grows]. }
  destruct (Hg st) as (? & ? & Heq). split_and!; [done | done | apply Heq].
Qed.

(** X7. What the script does shows the same from two starting states with
    the same world, whatever list objects either holds: same outcome, same
    trace, same world at the end. *)
Theorem script_ignores_heap st1 st2 :
  world st1 = world st2 →
  outcome (script st1) = outcome (script st2)
  ∧ trace (script st1) = trace (script st2)
  ∧ world (final (script st1)) = world (final (script st2)).
Proof.
  intros Hw.
  pose proof (plays_same_world script sweep st1 st2 script_plays Hw) as H.
  unfold observe in H. by injection H as -> -> ->.
Qed.

(** X8. The launches of the script are made one after the other: each
    subprocess is started in the world the one before left, and the world
    the script ends in is the one its last launch left. *)
Theorem script_launches_in_sequence st :
  answers (world st) (invocations (trace (script st)))
  = ((launches (trace (script st))).*2, world (final (script st))).
Proof. apply (plays_answers script sweep), script_plays. Qed.

Lemma plays_scalars m l st line :
  plays m l → line ∈ printed (trace (m st)) → Forall Utf8.scalar line.
Proof.
  intros H. rewrite (plays_printed m l st H).
  intros (r & _ & [Hr _]%reading_decoding)%list_elem_of_omap.
  destruct r as [|rc out err]; [done|]. simpl in Hr.
  destruct (rc =? 0); [|done]. by apply decode_iff in Hr as [? _].
Qed.

(** *** More on one call of [run] *)


(** X10. When the subprocess exits with status 0 and its output is UTF-8
    but ends in a character of more than one byte, dropping the last byte
    cuts that character: the whole output decodes, and [run] raises
    [UnicodeDecodeError] and prints nothing. *)
Theorem run_cuts_last_character st args argv out s c err w1 :
  heap st !! args = Some argv →
  launch (world st) argv = (Exited 0 out err, w1) →
  Forall Utf8.scalar s → Utf8.scalar c → 0x80 ≤ c →
  byte_val <$> out = Utf8.encode (s ++ [c]) →
  Utf8.decode out = Some (s ++ [c])
  ∧ run args st =
      {| outcome := inr (UnicodeDecodeError (removelast out));
         final := {| world := w1; heap := heap st |};
         trace := [Launch argv (Exited 0 out err)] |}.
Proof.
  intros Hargs Hlaunch Hs Hc Hge Hout. split.
  { apply decode_iff. split; [|done]. apply Forall_app. split; [done|].
    by apply Forall_singleton. }
  rewrite (run_eq _ _ _ Hargs), Hlaunch. unfold reading. simpl.
  rewrite slice_to_minus_one.
  assert (Utf8.decode (removelast out) = None) as ->; [|done].
  unfold Utf8.decode. rewrite fmap_removelast, Hout, encode_app.
  change (Utf8.encode [c]) with (Utf8.encode_char c ++ []). rewrite app_nil_r.
  rewrite removelast_app by apply encode_char_nonempty.
  by rewrite decode_vals_encode_app, decode_vals_truncated.
Qed.

(** X12. Every line the script prints is made of code points that are
    neither surrogates nor above U+10FFFF, whatever the subprocesses
    wrote. *)
Theorem script_prints_scalars st line :
  line ∈ printed (trace (script st)) → Forall Utf8.scalar line.
Proof. apply (plays_scalars script sweep), script_plays. Qed.

End Driver.

Arguments outcome {World A} _.
Arguments final {World A} _.
Arguments trace {World A} _.

(** ** Two runs side by side *)

(** C7. Two calls of [run] whose subprocesses end with the same exit status
    and the same standard output print the same lines, whatever either wrote
    to standard error: the lines are [shown encodes returncode out], in which
    the captured standard error does not occur, and the two calls end alike,
    but for the captured standard error that a [CalledProcessError] carries. *)
Theorem run_ignores_stderr {W1 W2 : Type}
    (launch1 : W1 -> list string -> launched * W1)
    (launch2 : W2 -> list string -> launched * W2)
    (encodes : Z -> bool)
    (st1 : @state W1) (st2 : @state W2) args1 args2 argv returncode out err1 err2 w1 w2 :
  heap st1 !! args1 = Some argv →
  heap st2 !! args2 = Some argv →
  launch1 (world st1) argv = (Exited returncode out err1, w1) →
  launch2 (world st2) argv = (Exited returncode out err2, w2) →
  printed (trace (run launch1 encodes args1 st1)) = shown encodes returncode out
  ∧ printed (trace (run launch2 encodes args2 st2)) = shown encodes returncode out
  ∧ stdout_text (trace (run launch1 encodes args1 st1))
    = stdout_text (trace (run launch2 encodes args2 st2))
  ∧ forget_stderr (outcome (run launch1 encodes args1 st1))
    = forget_stderr (outcome (run launch2 encodes args2 st2)).
Proof.
  intros Hargs1 Hargs2 Hlaunch1 Hlaunch2.
  rewrite (run_eq _ _ _ _ _ Hargs1), (run_eq _ _ _ _ _ Hargs2), Hlaunch1, Hlaunch2.
  unfold shown, stdout_text, reading. simpl.
  destruct (returncode =? 0); [|done].
  destruct (Utf8.decode (slice_to (-1) out)) as [s|]; [|done].
  destruct (forallb encodes s); done.
Qed.

(** C10, amended. Two runs of the script in neither of which a call of
    [run] raises, that is in each of which every launch goes through (exit
    status 0, output less the last byte UTF-8, text encoded by the driver's
    standard output), make the same launches in the same order, those of
    the sweep, whatever the subprocesses wrote. *)
Theorem script_invocations_fixed {W1 W2 : Type}
    (launch1 : W1 -> list string -> launched * W1)
    (launch2 : W2 -> list string -> launched * W2)
    (encodes1 encodes2 : Z -> bool)
    (st1 : @state W1) (st2 : @state W2) :
  (Forall (went_through encodes1)
     (launches (trace (script launch1 encodes1 st1))).*2 →
   Forall (went_through encodes2)
     (launches (trace (script launch2 encodes2 st2))).*2 →
   invocations (trace (script launch1 encodes1 st1))
   = invocations (trace (script launch2 encodes2 st2))
   ∧ invocations (trace (script launch1 encodes1 st1)) = sweep)
  ∧ (outcome (script launch1 encodes1 st1) = inl () →
     outcome (script launch2 encodes2 st2) = inl () →
     invocations (trace (script launch1 encodes1 st1))
     = invocations (trace (script launch2 encodes2 st2))
     ∧ invocations (trace (script launch1 encodes1 st1)) = sweep).
Proof.
  destruct (plays_went_through _ _ _ _ st1 (script_plays launch1 encodes1))
    as [Hiff1 Hinv1].
  destruct (plays_went_through _ _ _ _ st2 (script_plays launch2 encodes2))
    as [Hiff2 Hinv2].
  split.
  - intros H1%Hiff1 H2%Hiff2. by rewrite (Hinv1 H1), (Hinv2 H2).
  - intros H1 H2. by rewrite (Hinv1 H1), (Hinv2 H2).
Qed.

(** ** The script with standard error left out *)

Lemma reading_mute encodes r : reading encodes (mute r) = reading encodes r.
Proof. by destruct r. Qed.

Lemma failure_mute argv r :
  inr (failure argv (mute r)) = forget_stderr (A := unit) (inr (failure argv r)).
Proof.
  destruct r as [|rc out err]; simpl; [done|].
  destruct (rc =? 0); [|done]. by destruct (Utf8.decode (slice_to (-1) out)).
Qed.

Lemma printed_mute t : printed (mute_event <$> t) = printed t.
Proof.
  induction t as [|[argv r|line] t IH]; [done | exact IH |].
  change (line :: printed (mute_event <$> t) = line :: printed t). by rewrite IH.
Qed.

Lemma invocations_mute t : invocations (mute_event <$> t) = invocations t.
Proof.
  induction t as [|[argv r|line] t IH]; [done | | exact IH].
  change (argv :: invocations (mute_event <$> t) = argv :: invocations t).
  by rewrite IH.
Qed.

Lemma play_quiet {World} (launch : World -> list string -> launched * World)
    encodes l w :
  play (quiet launch) encodes l w
  = let '(o, w1, t) := play launch encodes l w in
    (forget_stderr o, w1, mute_event <$> t).
Proof.
  revert w. induction l as [|argv l IH]; intros w; [done|].
  cbn [play]. unfold quiet at 1. destruct (launch w argv) as [r w1].
  rewrite reading_mute. destruct (reading encodes r) as [s|].
  - rewrite IH. by destruct (play launch encodes l w1) as [[o w2] t].
  - by rewrite failure_mute.
Qed.

Lemma plays_quiet {World} (launch : World -> list string -> launched * World)
    encodes (m1 m2 : M unit) l st :
  plays (quiet launch) encodes m1 l → plays launch encodes m2 l →
  printed (trace (m1 st)) = printed (trace (m2 st))
  ∧ invocations (trace (m1 st)) = invocations (trace (m2 st))
  ∧ outcome (m1 st) = forget_stderr (outcome (m2 st))
  ∧ world (final (m1 st)) = world (final (m2 st)).
Proof.
  intros H1 H2. specialize (H1 st). specialize (H2 st).
  rewrite play_quiet, <- H2 in H1. unfold observe in H1.
  injection H1 as -> -> ->. by rewrite printed_mute, invocations_mute.
Qed.

(** X13. Leaving out what every subprocess writes to standard error changes
    nothing of what the script launches and prints, nor the world it ends
    in; it ends the same way, but for the captured standard error that a
    [CalledProcessError] carries. *)
Theorem script_ignores_stderr {World}
    (launch : World -> list string -> launched * World) (encodes : Z -> bool)
    (st : state) :
  printed (trace (script (quiet launch) encodes st))
  = printed (trace (script launch encodes st))
  ∧ invocations (trace (script (quiet launch) encodes st))
    = invocations (trace (script launch encodes st))
  ∧ outcome (script (quiet launch) encodes st)
    = forget_stderr (outcome (script launch encodes st))
  ∧ world (final (script (quiet launch) encodes st))
    = world (final (script launch encodes st)).
Proof.
  apply (plays_quiet launch encodes _ _ sweep); apply script_plays.
Qed.

(** ** The decoder and the slice on examples *)

Example slice_hello :
  slice_to (-1) [x68; x65; x6c; x6c; x6f; x0a] = [x68; x65; x6c; x6c; x6f].
Proof. reflexivity. Qed.

Example decode_hello :
  Utf8.decode [x68; x65; x6c; x6c; x6f] = Some [104; 101; 108; 108; 111].
Proof. reflexivity. Qed.

Example decode_two_bytes : Utf8.decode [xc3; xa9] = Some [233].
Proof. reflexivity. Qed.

Example decode_three_bytes : Utf8.decode [xe2; x82; xac] = Some [0x20AC].
Proof. reflexivity. Qed.

Example decode_four_bytes : Utf8.decode [xf0; x9f; x98; x80] = Some [0x1F600].
Proof. reflexivity. Qed.

Example decode_truncated : Utf8.decode [xc3] = None.
Proof. reflexivity. Qed.

Example decode_overlong : Utf8.decode [xc0; x80] = None.
Proof. reflexivity. Qed.

Example decode_surrogate : Utf8.decode [xed; xa0; x80] = None.
Proof. reflexivity. Qed.

Example decode_too_large : Utf8.decode [xf4; x90; x80; x80] = None.
Proof. reflexivity. Qed.

Example decode_bad_start : Utf8.decode [xff] = None.
Proof. reflexivity. Qed.

(** ** The stub launchers at work *)

Example script_hello_outcome :
  outcome (script (const_launch says_hello) any_text (initial ())) = inl ().
Proof. vm_compute. reflexivity. Qed.

Example script_hello_lines :
  printed (trace (script (const_launch says_hello) any_text (initial ())))
  = replicate 70 [104; 101; 108; 108; 111].
Proof. vm_compute. reflexivity. Qed.

(** On a standard output in ASCII, a binary that writes an e with an acute
    accent ends the script at its first launch, with the exception of
    [print]. *)
Example script_e_acute_on_ascii :
  outcome (script (const_launch says_e_acute) ascii_only (initial ()))
  = inr (UnicodeEncodeError [233])
  ∧ trace (script (const_launch says_e_acute) ascii_only (initial ()))
    = [Launch (dimension_args "prio" "1") says_e_acute].
Proof. split; vm_compute; reflexivity. Qed.

Lemma dimensions_loop_invocations_witness :
  invocations (trace (dimensions_loop (const_launch says_hello) ascii_only
                        (initial ())))
  = dimension_grid.
Proof.
  destruct (dimensions_loop_invocations (const_launch says_hello) ascii_only
              (initial ())) as [Hiff Hinv].
  apply Hinv, Hiff. apply (bool_decide_unpack _). vm_compute. exact I.
Defined.

(** C1 as stated, without the condition that launches succeed: with a binary
    that exits with status 1 the dimensions loop launches it once, not five
    times for each of the eight pairs. *)
Lemma dimensions_loop_cut_short :
  invocations (trace (dimensions_loop (const_launch exits_one) any_text
                        (initial ())))
  = [[comparison; "-f"; "prio"; "-d"; "1"; "-c"; "10000"]]
  ∧ invocations (trace (dimensions_loop (const_launch exits_one) any_text
                          (initial ())))
    ≠ dimension_grid.
Proof. split; [vm_compute; reflexivity | vm_compute; discriminate]. Qed.

Lemma clients_loop_invocations_witness :
  invocations (trace (clients_loop (const_launch says_hello) ascii_only
                        (initial ())))
  = client_grid.
Proof.
  destruct (clients_loop_invocations (const_launch says_hello) ascii_only
              (initial ())) as [Hiff Hinv].
  apply Hinv, Hiff. apply (bool_decide_unpack _). vm_compute. exact I.
Defined.

(** C2 as stated, without the condition that launches succeed: with a binary
    that exits with status 1 the clients loop launches it once, not five
    times for each of the six pairs. *)
Lemma clients_loop_cut_short :
  invocations (trace (clients_loop (const_launch exits_one) any_text
                        (initial ())))
  = [[comparison; "-f"; "prio"; "-d"; "1"; "-c"; "10000"]]
  ∧ invocations (trace (clients_loop (const_launch exits_one) any_text
                          (initial ())))
    ≠ client_grid.
Proof. split; [vm_compute; reflexivity | vm_compute; discriminate]. Qed.

Lemma script_invocations_witness :
  length (invocations (trace (script (const_launch says_hello) ascii_only
                                (initial ()))))
  = 70%nat.
Proof.
  destruct (script_invocations (const_launch says_hello) ascii_only
              (initial ())) as [Hiff Hinv].
  apply Hinv, Hiff. apply (bool_decide_unpack _). vm_compute. exact I.
Defined.

(** C3 as stated, with exit status 0 for success: with a binary that exits
    with status 0 after writing [b"\xff\n"], every subprocess of the run
    exits with status 0, and the run makes one launch, not 70: it ends with
    [UnicodeDecodeError]. *)
Lemma script_one_launch_all_exit_zero :
  Forall exited_zero
    (launches (trace (script (const_launch says_garbage) any_text
                        (initial ())))).*2
  ∧ length (invocations (trace (script (const_launch says_garbage) any_text
                                  (initial ()))))
    = 1%nat
  ∧ length (invocations (trace (script (const_launch says_garbage) any_text
                                  (initial ()))))
    ≠ 70%nat
  ∧ outcome (script (const_launch says_garbage) any_text (initial ()))
    = inr (UnicodeDecodeError [xff]).
Proof.
  split_and!; [|vm_compute; reflexivity|vm_compute; discriminate|vm_compute; reflexivity].
  apply (bool_decide_unpack _). vm_compute. exact I.
Qed.

Lemma script_invocations_fixed_witness :
  invocations (trace (script (const_launch says_hello) ascii_only (initial ())))
  = invocations (trace (script (scripted (replicate 70 says_e_acute)) any_text
                          (initial 0%nat))).
Proof.
  destruct (script_invocations_fixed (const_launch says_hello)
              (scripted (replicate 70 says_e_acute)) ascii_only any_text
              (initial ()) (initial 0%nat)) as [Hwent _].
  apply Hwent; apply (bool_decide_unpack _); vm_compute; exact I.
Defined.

(** C10 as stated: two runs in each of which every subprocess exits with
    status 0, one writing [b"hello\n"] and one writing [b"\xff\n"]; the
    first makes the 70 launches of the sweep, the second makes one.  The
    same happens on a standard output in ASCII between [b"hello\n"] and the
    UTF-8 output [b"\xc3\xa9\n"]. *)
Lemma script_invocations_depend_on_output :
  Forall exited_zero
    (launches (trace (script (const_launch says_hello) any_text
                        (initial ())))).*2
  ∧ Forall exited_zero
      (launches (trace (script (const_launch says_garbage) any_text
                          (initial ())))).*2
  ∧ invocations (trace (script (const_launch says_hello) any_text (initial ())))
    ≠ invocations (trace (script (const_launch says_garbage) any_text
                            (initial ())))
  ∧ Forall exited_zero
      (launches (trace (script (const_launch says_e_acute) ascii_only
                          (initial ())))).*2
  ∧ invocations (trace (script (const_launch says_hello) ascii_only
                          (initial ())))
    ≠ invocations (trace (script (const_launch says_e_acute) ascii_only
                            (initial ()))).
Proof.
  split_and!;
    [apply (bool_decide_unpack _); vm_compute; exact I..
    |vm_compute; discriminate
    |apply (bool_decide_unpack _); vm_compute; exact I
    |vm_compute; discriminate].
Qed.



Lemma run_nonzero_exit_witness :
  outcome (run (scripted hello_twice_then_one) any_text 0%nat
             (holding 2%nat (dimension_args "prio" "1")))
  = inr (CalledProcessError 1 (dimension_args "prio" "1") [] [x6e; x6f; x0a])
  ∧ outcome (script (scripted hello_twice_then_one) any_text (initial 0%nat))
    = inr (CalledProcessError 1 (dimension_args "prio" "1") [] [x6e; x6f; x0a])
  ∧ length (invocations (trace (script (scripted hello_twice_then_one) any_text
                                  (initial 0%nat)))) = 3%nat.
Proof.
  pose proof (run_nonzero_exit (scripted hello_twice_then_one) any_text
                (holding 2%nat (dimension_args "prio" "1")) 0%nat
                (dimension_args "prio" "1") 1 [] [x6e; x6f; x0a] 3%nat
                eq_refl eq_refl ltac:(discriminate))
    as (-> & _ & Hscript).
  split; [reflexivity|].
  destruct (Hscript (initial 0%nat)
              [(dimension_args "prio" "1", says_hello);
               (dimension_args "prio" "1", says_hello)] [] eq_refl)
    as (_ & -> & _).
  split; reflexivity.
Defined.

Lemma run_undecodable_witness :
  outcome (run (scripted hello_twice_then_garbage) any_text 0%nat
             (holding 2%nat (dimension_args "prio" "1")))
  = inr (UnicodeDecodeError [xff])
  ∧ outcome (script (scripted hello_twice_then_garbage) any_text (initial 0%nat))
    = inr (UnicodeDecodeError [xff])
  ∧ length (invocations (trace (script (scripted hello_twice_then_garbage)
                                  any_text (initial 0%nat)))) = 3%nat.
Proof.
  pose proof (run_undecodable (scripted hello_twice_then_garbage) any_text
                (holding 2%nat (dimension_args "prio" "1")) 0%nat
                (dimension_args "prio" "1") [xff; x0a] [] 3%nat
                eq_refl eq_refl eq_refl)
    as (-> & Hscript).
  split; [reflexivity|].
  destruct (Hscript (initial 0%nat)
              [(dimension_args "prio" "1", says_hello);
               (dimension_args "prio" "1", says_hello)] [] eq_refl)
    as (_ & -> & _).
  split; reflexivity.
Defined.

Lemma run_ignores_stderr_witness :
  printed (trace (run (const_launch says_ok) any_text 0%nat
                    (holding () (dimension_args "prio" "1"))))
  = printed (trace (run (const_launch (Exited 0 [x6f; x6b; x0a] [])) any_text
                      0%nat (holding () (dimension_args "prio" "1"))))
  ∧ printed (trace (run (const_launch says_ok) any_text 0%nat
                      (holding () (dimension_args "prio" "1"))))
    = [[111; 107]].
Proof.
  pose proof (run_ignores_stderr (const_launch says_ok)
                (const_launch (Exited 0 [x6f; x6b; x0a] [])) any_text
                (holding () (dimension_args "prio" "1"))
                (holding () (dimension_args "prio" "1")) 0%nat 0%nat
                (dimension_args "prio" "1") 0 [x6f; x6b; x0a]
                [x77; x61; x72; x6e] [] () ()
                eq_refl eq_refl eq_refl eq_refl)
    as (-> & -> & _).
  split; reflexivity.
Defined.

Lemma run_empty_stdout_witness :
  stdout_text (trace (run (const_launch (Exited 0 [] [x77; x61; x72; x6e]))
                        ascii_only 0%nat
                        (holding () (dimension_args "prio" "1"))))
  = [newline].
Proof.
  apply (run_empty_stdout (const_launch (Exited 0 [] [x77; x61; x72; x6e]))
           ascii_only (holding () (dimension_args "prio" "1")) 0%nat
           (dimension_args "prio" "1") [x77; x61; x72; x6e] ());
    reflexivity.
Defined.

(** ** More of the stub launchers at work *)



Lemma script_ignores_heap_witness :
  trace (script (const_launch says_hello) any_text (initial ()))
  = trace (script (const_launch says_hello) any_text
             (holding () (client_args "prio" "1"))).
Proof.
  apply (script_ignores_heap (const_launch says_hello) any_text (initial ())
           (holding () (client_args "prio" "1"))).
  reflexivity.
Defined.


Lemma run_cuts_last_character_witness :
  Utf8.decode [x68; xc3; xa9] = Some [104; 233]
  ∧ outcome (run (const_launch (Exited 0 [x68; xc3; xa9] [])) any_text 0%nat
               (holding () (dimension_args "prio" "1")))
    = inr (UnicodeDecodeError [x68; xc3]).
Proof.
  pose proof (run_cuts_last_character (const_launch (Exited 0 [x68; xc3; xa9] []))
                any_text (holding () (dimension_args "prio" "1")) 0%nat
                (dimension_args "prio" "1") [x68; xc3; xa9] [104] 233 [] ()
                eq_refl eq_refl) as H.
  destruct H as [Hdec ->].
  - apply Forall_singleton. left. lia.
  - left. lia.
  - lia.
  - reflexivity.
  - split; [exact Hdec | reflexivity].
Defined.

Lemma str_utf8_inverts_encode_witness :
  Forall Utf8.scalar [104; 233]
  ∧ Utf8.encode [104; 233] = byte_val <$> [x68; xc3; xa9].
Proof.
  apply (str_utf8_inverts_encode [x68; xc3; xa9] [104; 233]). reflexivity.
Defined.

Lemma script_prints_scalars_witness : Forall Utf8.scalar [104; 101; 108; 108; 111].
Proof.
  apply (script_prints_scalars (const_launch says_hello) any_text (initial ())).
  vm_compute. constructor.
Defined.
